(** * PropertyLoop real-estate assistant: the chat client's state machine

    A shallow embedding of the React component [App] (frontend,
    [App.tsx]): its five state cells, the two asynchronous handlers
    [onDrop] and [handleSendMessage], and the dropzone configuration.

    An [async] handler runs in two synchronous pieces: the part up to
    the [await] on [axios.post], and the continuation that runs when the
    promise settles.  Each piece is a pure function from the component
    state to the new state and the effects it performs (a request, a
    console line).  State cells read directly ([input], [location],
    [lastAnalysis]) are read by the first piece, the one that builds the
    request; [setMessages] is always called with an updater
    [prev => ...], so the continuation appends to the transcript as it
    is when the promise settles.

    A handler reads those cells from the closure of the render it was
    created in, and a [set...] call only queues its update until React
    renders again.  [step] and [run] describe the component when every
    handler call comes after the re-render of the event before it;
    [occur] and [occur_all] keep the rendered values and the queued
    state apart, with the re-render as an occurrence of its own. *)

From Stdlib Require Import List String Ascii Bool NArith ZArith QArith Lia Lqa.
From Stdlib Require Import Sorted Permutation.
Import ListNotations.

Set Implicit Arguments.

(** ** JavaScript values *)

Module JS.

(** A JavaScript string is a sequence of UTF-16 code units. *)
Definition jsstring := list N.

Definition str (s : string) : jsstring :=
  map N_of_ascii (list_ascii_of_string s).

(** The values a JSON response body can hold, and [undefined] for a
    property that is not there. *)
#[local] Unset Elimination Schemes.
Inductive value : Type :=
| Undefined
| Null
| Boolean (b : bool)
| Num (q : Q)
| Str (s : jsstring)
| Arr (items : list value)
| Obj (props : list (jsstring * value)).
#[local] Set Elimination Schemes.

(** ToBoolean: [undefined], [null], [false], zero and the empty string
    are falsy; every array and object is truthy. *)
Definition truthy (v : value) : bool :=
  match v with
  | Undefined | Null => false
  | Boolean b => b
  | Num q => negb (Qnum q =? 0)%Z
  | Str s => match s with [] => false | _ :: _ => true end
  | Arr _ | Obj _ => true
  end.

(** WhiteSpace and LineTerminator code units, the ones
    [String.prototype.trim] strips. *)
Definition is_whitespace (c : N) : bool :=
  ((9 <=? c) && (c <=? 13) || (c =? 32) || (c =? 160) || (c =? 5760)
   || (8192 <=? c) && (c <=? 8202) || (c =? 8232) || (c =? 8233)
   || (c =? 8239) || (c =? 8287) || (c =? 12288) || (c =? 65279))%N.

Fixpoint trimStart (s : jsstring) : jsstring :=
  match s with
  | [] => []
  | c :: rest => if is_whitespace c then trimStart rest else s
  end.

Definition trimEnd (s : jsstring) : jsstring := rev (trimStart (rev s)).

Definition trim (s : jsstring) : jsstring := trimEnd (trimStart s).

(** ToBoolean of a string. *)
Definition nonempty (s : jsstring) : bool :=
  match s with [] => false | _ :: _ => true end.

Fixpoint str_eqb (a b : jsstring) : bool :=
  match a, b with
  | [], [] => true
  | x :: a', y :: b' => (x =? y)%N && str_eqb a' b'
  | _, _ => false
  end.

Fixpoint startsWith (t s : jsstring) : bool :=
  match t, s with
  | [], _ => true
  | _ :: _, [] => false
  | a :: t', b :: s' => (a =? b)%N && startsWith t' s'
  end.

Fixpoint includes (t s : jsstring) : bool :=
  startsWith t s || match s with [] => false | _ :: s' => includes t s' end.

(** Every string a value holds: property names and string leaves. *)
Fixpoint texts (v : value) : list jsstring :=
  match v with
  | Undefined | Null | Boolean _ | Num _ => []
  | Str s => [s]
  | Arr items => flat_map texts items
  | Obj props => flat_map (fun kv => fst kv :: texts (snd kv)) props
  end.

End JS.

Import JS.

(** ** Component state *)

Inductive MessageType := user | bot.

Record Message := {
  type : MessageType;
  content : jsstring;
  imageUrl : option jsstring
}.

Record State := {
  messages : list Message;
  input : jsstring;
  location : jsstring;
  loading : bool;
  lastAnalysis : value
}.

(** The [useState] initial values. *)
Definition initial : State :=
  {| messages := []; input := []; location := []; loading := false;
     lastAnalysis := Null |}.

Definition setMessages (f : list Message -> list Message) (s : State) : State :=
  {| messages := f (messages s); input := input s; location := location s;
     loading := loading s; lastAnalysis := lastAnalysis s |}.

Definition setInput (v : jsstring) (s : State) : State :=
  {| messages := messages s; input := v; location := location s;
     loading := loading s; lastAnalysis := lastAnalysis s |}.

Definition setLocation (v : jsstring) (s : State) : State :=
  {| messages := messages s; input := input s; location := v;
     loading := loading s; lastAnalysis := lastAnalysis s |}.

Definition setLoading (b : bool) (s : State) : State :=
  {| messages := messages s; input := input s; location := location s;
     loading := b; lastAnalysis := lastAnalysis s |}.

Definition setLastAnalysis (a : value) (s : State) : State :=
  {| messages := messages s; input := input s; location := location s;
     loading := loading s; lastAnalysis := a |}.

(** ** Requests, responses, effects *)

Record File := { file_name : jsstring; file_type : jsstring }.

(** The body of [POST /chat]; [chat_location] is [None] when the
    property is [undefined], which JSON serialisation leaves out. *)
Record ChatBody := {
  chat_message : jsstring;
  chat_location : option jsstring;
  chat_last_analysis : value
}.

Inductive Request :=
| UploadImage (file : File)
| Chat (body : ChatBody).

(** [response.data] of either endpoint: an object whose properties the
    handlers read. *)
Record ResponseData := {
  response : jsstring;
  image_url : option jsstring;
  last_analysis : value
}.

(** How the awaited promise settles; a rejection carries the error. *)
Inductive Outcome :=
| Resolved (data : ResponseData)
| Rejected (error : jsstring).

Inductive Effect :=
| Post (req : Request)
| ConsoleError (label error : jsstring).

(** ** The upload handler *)

Definition upload_error_text : jsstring :=
  str "Sorry, there was an error processing your image. Please try again.".

(** [onDrop] up to its [await]. *)
Definition onDrop (acceptedFiles : list File) (s : State) : State * list Effect :=
  match acceptedFiles with
  | [] => (s, [])
  | file :: _ => (setLoading true s, [Post (UploadImage file)])
  end.

(** [onDrop] from its [await] on: the [try] body after the request, the
    [catch] and the [finally]. *)
Definition onDrop_settled (o : Outcome) (s : State) : State * list Effect :=
  match o with
  | Resolved data =>
      let s1 := if truthy (last_analysis data)
                then setLastAnalysis (last_analysis data) s else s in
      let s2 := setMessages (fun prev => prev ++
                  [ {| type := user; content := str "Uploaded image for analysis";
                       imageUrl := image_url data |};
                    {| type := bot; content := response data; imageUrl := None |} ]) s1 in
      (setLoading false s2, [])
  | Rejected error =>
      let s1 := setMessages (fun prev => prev ++
                  [ {| type := bot; content := upload_error_text; imageUrl := None |} ]) s in
      (setLoading false s1, [ConsoleError (str "Error uploading image:") error])
  end.

(** The options handed to [useDropzone]. *)
Record DropzoneOptions := {
  accept : list (jsstring * list jsstring);
  maxFiles : nat
}.

Definition dropzone : DropzoneOptions :=
  {| accept := [ (str "image/*", [str ".jpeg"; str ".jpg"; str ".png"; str ".gif"]) ];
     maxFiles := 1 |}.

(** ** The chat handler *)

Definition chat_error_text : jsstring :=
  str "Sorry, I encountered an error. Please try again.".

(** [location || undefined]. *)
Definition location_field (location : jsstring) : option jsstring :=
  if nonempty location then Some location else None.

(** [handleSendMessage] up to its [await]. *)
Definition handleSendMessage (s : State) : State * list Effect :=
  if negb (nonempty (trim (input s))) then (s, [])
  else
    let userMessage := trim (input s) in
    let s1 := setInput [] s in
    let s2 := setMessages (fun prev => prev ++
                [ {| type := user; content := userMessage; imageUrl := None |} ]) s1 in
    let s3 := setLoading true s2 in
    (s3, [Post (Chat {| chat_message := userMessage;
                        chat_location := location_field (location s);
                        chat_last_analysis := lastAnalysis s |})]).

(** [handleSendMessage] from its [await] on. *)
Definition handleSendMessage_settled (o : Outcome) (s : State) : State * list Effect :=
  match o with
  | Resolved data =>
      let s1 := setMessages (fun prev => prev ++
                  [ {| type := bot; content := response data; imageUrl := None |} ]) s in
      let s2 := if truthy (last_analysis data)
                then setLastAnalysis (last_analysis data) s1 else s1 in
      (setLoading false s2, [])
  | Rejected error =>
      let s1 := setMessages (fun prev => prev ++
                  [ {| type := bot; content := chat_error_text; imageUrl := None |} ]) s in
      (setLoading false s1, [ConsoleError (str "Error sending message:") error])
  end.

(** The Send button's [disabled] attribute. *)
Definition send_disabled (s : State) : bool :=
  loading s || negb (nonempty (trim (input s))).

(** ** Everything that can happen to the component *)

Inductive Event :=
| Dropped (acceptedFiles : list File)
| UploadSettled (o : Outcome)
| SendPressed
| ChatSettled (o : Outcome)
| InputChanged (v : jsstring)
| LocationChanged (v : jsstring).

Definition step (e : Event) (s : State) : State * list Effect :=
  match e with
  | Dropped files => onDrop files s
  | UploadSettled o => onDrop_settled o s
  | SendPressed => handleSendMessage s
  | ChatSettled o => handleSendMessage_settled o s
  | InputChanged v => (setInput v s, [])
  | LocationChanged v => (setLocation v s, [])
  end.

Fixpoint run (es : list Event) (s : State) : State :=
  match es with
  | [] => s
  | e :: es' => run es' (fst (step e s))
  end.

(** The analysis an event stores, if it stores one. *)
Definition put_of (e : Event) : option value :=
  match e with
  | UploadSettled (Resolved data) | ChatSettled (Resolved data) =>
      if truthy (last_analysis data) then Some (last_analysis data) else None
  | _ => None
  end.

(** The analysis in the store after a run that started with [a] in it. *)
Fixpoint latest (es : list Event) (a : value) : value :=
  match es with
  | [] => a
  | e :: es' => latest es' (match put_of e with Some a' => a' | None => a end)
  end.

(** The turns one event appends, given the state it happens in. *)
Definition appended (e : Event) (s : State) : list Message :=
  match e with
  | UploadSettled (Resolved data) =>
      [ {| type := user; content := str "Uploaded image for analysis";
           imageUrl := image_url data |};
        {| type := bot; content := response data; imageUrl := None |} ]
  | UploadSettled (Rejected _) =>
      [ {| type := bot; content := upload_error_text; imageUrl := None |} ]
  | SendPressed =>
      if nonempty (trim (input s)) then
        [ {| type := user; content := trim (input s); imageUrl := None |} ]
      else []
  | ChatSettled (Resolved data) =>
      [ {| type := bot; content := response data; imageUrl := None |} ]
  | ChatSettled (Rejected _) =>
      [ {| type := bot; content := chat_error_text; imageUrl := None |} ]
  | Dropped _ | InputChanged _ | LocationChanged _ => []
  end.

Fixpoint transcript_of (es : list Event) (s : State) : list Message :=
  match es with
  | [] => []
  | e :: es' => appended e s ++ transcript_of es' (fst (step e s))
  end.

(** ** The feature normalizer *)

Module Normalizer.

Inductive Label :=
| structural_damage | water_damage | mold | cosmetic_wear | other.

(** Rank in the tie-break order structural > water > mold > cosmetic >
    other; a smaller rank comes first. *)
Definition priority (l : Label) : nat :=
  match l with
  | structural_damage => 0
  | water_damage => 1
  | mold => 2
  | cosmetic_wear => 3
  | other => 4
  end.

Definition Label_eqb (a b : Label) : bool := Nat.eqb (priority a) (priority b).

Inductive Severity := low | medium | high.

Record Issue := {
  label : Label;
  confidence : Q;
  severity : Severity
}.

Definition qmax (a b : Q) : Q := if Qle_bool a b then b else a.

(** Out-of-range scores are brought back into [0,1]. *)
Definition clamp (q : Q) : Q :=
  if Qle_bool 0 q then (if Qle_bool q 1 then q else 1) else 0.

(** Fold one detection into the issues merged so far: a label already
    there keeps the larger confidence, a new label goes at the end. *)
Fixpoint merge (l : Label) (c : Q) (acc : list (Label * Q)) : list (Label * Q) :=
  match acc with
  | [] => [(l, c)]
  | (l', c') :: rest =>
      if Label_eqb l l' then (l', qmax c' c) :: rest
      else (l', c') :: merge l c rest
  end.

(** [a] may stand before [b]: larger confidence first, equal
    confidence by taxonomy priority. *)
Definition before (a b : Issue) : bool :=
  negb (Qle_bool (confidence a) (confidence b))
  || (Qeq_bool (confidence a) (confidence b)
      && (priority (label a) <=? priority (label b))%nat).

Fixpoint insert (x : Issue) (l : list Issue) : list Issue :=
  match l with
  | [] => [x]
  | y :: rest => if before x y then x :: l else y :: insert x rest
  end.

Definition sort (l : list Issue) : list Issue := fold_right insert [] l.

Section Normalize.

(** The fixed taxonomy: the category of a raw label, [None] for a label
    outside it.  The bands are the operator's configuration. *)
Variable taxonomy : jsstring -> option Label.
Variables high_band medium_band : Q.

Definition canonical (raw_label : jsstring) : Label :=
  match taxonomy raw_label with
  | Some l => l
  | None => other
  end.

Definition severity_of (c : Q) : Severity :=
  if Qle_bool high_band c then high
  else if Qle_bool medium_band c then medium
  else low.

Definition merged (rawDetections : list (jsstring * Q)) : list (Label * Q) :=
  fold_left (fun acc d => merge (canonical (fst d)) (clamp (snd d)) acc)
            rawDetections [].

Definition issue_of (d : Label * Q) : Issue :=
  {| label := fst d; confidence := snd d; severity := severity_of (snd d) |}.

(** Modelled from the spec: the Feature Normalizer [normalize] (spec
    section 4.1) belongs to the backend, which is not among the sources;
    this follows the contract's words: labels outside the taxonomy go
    to [other], scores are clamped to [0,1], detections of one label are
    merged keeping the maximum confidence, severity comes from the
    bands, and the output is ordered by descending confidence with ties
    broken by taxonomy priority. *)
Definition normalize (rawDetections : list (jsstring * Q)) : list Issue :=
  sort (map issue_of (merged rawDetections)).

(** The confidence recorded for a label among merged detections. *)
Fixpoint lookup (l : Label) (acc : list (Label * Q)) : option Q :=
  match acc with
  | [] => None
  | (l', c') :: rest => if Label_eqb l l' then Some c' else lookup l rest
  end.

(** The largest clamped score of label [l] in the detections, starting
    from [init]. *)
Fixpoint best (l : Label) (rawDetections : list (jsstring * Q)) (init : option Q)
  : option Q :=
  match rawDetections with
  | [] => init
  | d :: rest =>
      best l rest
        (if Label_eqb (canonical (fst d)) l
         then Some (match init with
                    | Some c => qmax c (clamp (snd d))
                    | None => clamp (snd d)
                    end)
         else init)
  end.

End Normalize.

(** The order the contract asks of two issues, the first one earlier in
    the output. *)
Definition precedes (a b : Issue) : Prop :=
  (confidence b <= confidence a)%Q
  /\ ((confidence a == confidence b)%Q ->
      (priority (label a) < priority (label b))%nat).

(** A taxonomy for the spec's Scenario A: the canonical names and the
    two raw labels the scenario maps. *)
Definition scenario_taxonomy (raw_label : jsstring) : option Label :=
  if str_eqb raw_label (str "structural-damage") || str_eqb raw_label (str "crack")
  then Some structural_damage
  else if str_eqb raw_label (str "water-damage") || str_eqb raw_label (str "water stain")
  then Some water_damage
  else if str_eqb raw_label (str "mold") then Some mold
  else if str_eqb raw_label (str "cosmetic-wear") then Some cosmetic_wear
  else None.

Definition scenario_A : list (jsstring * Q) :=
  [ (str "water stain", 0.82); (str "water stain", 0.5); (str "crack", 0.3) ]%Q.

End Normalizer.

(** A reply references an analysis when it quotes some text of it. *)
Definition references (reply : jsstring) (analysis : value) : bool :=
  existsb (fun t => nonempty t && includes t reply) (texts analysis).

(** An analysis as the backend could return it. *)
Definition mold_analysis : value :=
  Obj [ (str "issues",
         Arr [ Obj [ (str "label", Str (str "mold"));
                     (str "severity", Str (str "high")) ] ]) ].

(** ** Keyboard and button *)

(** The message field's [onKeyPress]: Enter without Shift prevents the
    default (a line break) and calls [handleSendMessage]; the flag tells
    whether [preventDefault] was called. *)
Definition onKeyPress (key : jsstring) (shiftKey : bool) (s : State)
  : bool * (State * list Effect) :=
  if str_eqb key (str "Enter") && negb shiftKey
  then (true, handleSendMessage s)
  else (false, (s, [])).

(** A click on the Send button: a disabled button fires no [onClick]. *)
Definition onClick_send (s : State) : State * list Effect :=
  if send_disabled s then (s, []) else handleSendMessage s.

(** ** Effects of a run *)

Fixpoint run_effects (es : list Event) (s : State) : list Effect :=
  match es with
  | [] => []
  | e :: es' => snd (step e s) ++ run_effects es' (fst (step e s))
  end.

Definition is_post (f : Effect) : bool :=
  match f with Post _ => true | ConsoleError _ _ => false end.

(** The events that call a handler from its start. *)
Definition is_start (e : Event) : bool :=
  match e with Dropped _ | SendPressed => true | _ => false end.

Definition is_location_change (e : Event) : bool :=
  match e with LocationChanged _ => true | _ => false end.

(** ** Sessions of one chat request at a time *)

(** The bot turn a settled chat request leaves. *)
Definition reply_of (o : Outcome) : Message :=
  match o with
  | Resolved data => {| type := bot; content := response data; imageUrl := None |}
  | Rejected _ => {| type := bot; content := chat_error_text; imageUrl := None |}
  end.

(** The user types [fst r], sends it, and the request settles as
    [snd r] before anything else happens. *)
Definition chat_round (r : jsstring * Outcome) : list Event :=
  [InputChanged (fst r); SendPressed; ChatSettled (snd r)].

Definition chat_session (rounds : list (jsstring * Outcome)) : list Event :=
  flat_map chat_round rounds.

(** ** What is rendered *)

(** One [message-bubble]: the [Box] with its key and alignment, the
    [Paper] colours, the image when [message.imageUrl] is truthy, and
    the text. *)
Record Bubble := {
  key : nat;
  justifyContent : jsstring;
  bgcolor : jsstring;
  color : jsstring;
  border : jsstring;
  img_src : option jsstring;
  text : jsstring
}.

Definition is_user (t : MessageType) : bool :=
  match t with user => true | bot => false end.

Definition render_message (index : nat) (message : Message) : Bubble :=
  {| key := index;
     justifyContent := if is_user (type message)
                       then str "flex-end" else str "flex-start";
     bgcolor := if is_user (type message)
                then str "primary.main" else str "#F8FAFD";
     color := if is_user (type message)
              then str "#ffffff" else str "text.primary";
     border := if is_user (type message)
               then str "none" else str "1px solid rgba(30, 77, 140, 0.1)";
     img_src := match imageUrl message with
                | Some url => if nonempty url then Some url else None
                | None => None
                end;
     text := content message |}.

(** [messages.map((message, index) => ...)], from index [index] on. *)
Fixpoint render_messages (index : nat) (msgs : list Message) : list Bubble :=
  match msgs with
  | [] => []
  | message :: rest => render_message index message :: render_messages (S index) rest
  end.

Record View := {
  bubbles : list Bubble;
  spinner : bool;
  dropzone_prompt : jsstring;
  location_value : jsstring;
  input_value : jsstring;
  send_button_disabled : bool
}.

(** The JSX [App] returns; [isDragActive] comes from [useDropzone]. *)
Definition render (isDragActive : bool) (s : State) : View :=
  {| bubbles := render_messages 0 (messages s);
     spinner := loading s;
     dropzone_prompt :=
       if isDragActive then str "Drop the image here..."
       else str "Drag and drop an image here, or click to select";
     location_value := location s;
     input_value := input s;
     send_button_disabled := send_disabled s |}.

(** A turn as the handlers write it: a user turn has some text, a bot
    turn has no image. *)
Definition well_formed_turn (m : Message) : Prop :=
  match type m with
  | user => content m <> []
  | bot => imageUrl m = None
  end.

(** ** Renders and queued updates *)

(** [rendered] holds the values the handlers of the last committed
    render closed over; [current] is the state with every queued update
    applied, the one the next render will show. *)
Record Component := {
  rendered : State;
  current : State
}.

Definition committed (s : State) : Component :=
  {| rendered := s; current := s |}.

(** [handleSendMessage] up to its [await], called from the last
    committed render: [input], [location] and [lastAnalysis] are the
    constants of that render, the three [set...] calls queue. *)
Definition handleSendMessage_queued (c : Component) : Component * list Effect :=
  if negb (nonempty (trim (input (rendered c)))) then (c, [])
  else
    let userMessage := trim (input (rendered c)) in
    let s1 := setInput [] (current c) in
    let s2 := setMessages (fun prev => prev ++
                [ {| type := user; content := userMessage; imageUrl := None |} ]) s1 in
    let s3 := setLoading true s2 in
    ({| rendered := rendered c; current := s3 |},
     [Post (Chat {| chat_message := userMessage;
                    chat_location := location_field (location (rendered c));
                    chat_last_analysis := lastAnalysis (rendered c) |})]).

(** A handler runs, or React commits a render. *)
Inductive Occurrence :=
| Handle (e : Event)
| Commit.

(** The other handlers and the continuations read no state cell, so
    they act on the queued state as [step] does. *)
Definition occur (o : Occurrence) (c : Component) : Component * list Effect :=
  match o with
  | Commit => (committed (current c), [])
  | Handle SendPressed => handleSendMessage_queued c
  | Handle e =>
      ({| rendered := rendered c; current := fst (step e (current c)) |},
       snd (step e (current c)))
  end.

Fixpoint occur_all (os : list Occurrence) (c : Component) : Component :=
  match os with
  | [] => c
  | o :: os' => occur_all os' (fst (occur o c))
  end.

(** The handler events among the occurrences, in order. *)
Definition handled (os : list Occurrence) : list Event :=
  flat_map (fun o => match o with Handle e => [e] | Commit => [] end) os.

(** Each event followed by the re-render. *)
Definition rendering_each (es : list Event) : list Occurrence :=
  flat_map (fun e => [Handle e; Commit]) es.

(** A second analysis, for a crack. *)
Definition crack_analysis : value :=
  Obj [ (str "issues",
         Arr [ Obj [ (str "label", Str (str "crack"));
                     (str "severity", Str (str "low")) ] ]) ].

(** A string that does not begin with white space. *)
Definition clean_start (s : jsstring) : Prop :=
  match s with
  | [] => True
  | c :: _ => is_whitespace c = false
  end.

(** * Properties of the chat client *)

Lemma step_lastAnalysis (e : Event) (s : State) :
  lastAnalysis (fst (step e s))
  = match put_of e with Some a => a | None => lastAnalysis s end.
Proof.
  destruct e as [files | o | | o | v | v]; simpl; try reflexivity.
  - destruct files; reflexivity.
  - destruct o as [data | err]; simpl; [destruct (truthy (last_analysis data)) |];
      reflexivity.
  - unfold handleSendMessage.
    destruct (negb (nonempty (trim (input s)))); reflexivity.
  - destruct o as [data | err]; simpl; [destruct (truthy (last_analysis data)) |];
      reflexivity.
Qed.

Lemma run_lastAnalysis (es : list Event) :
  forall s, lastAnalysis (run es s) = latest es (lastAnalysis s).
Proof.
  induction es as [| e es IH]; intros s; simpl; [reflexivity |].
  now rewrite IH, step_lastAnalysis.
Qed.

Lemma step_messages (e : Event) (s : State) :
  messages (fst (step e s)) = messages s ++ appended e s.
Proof.
  destruct e as [files | o | | o | v | v]; simpl;
    try (now rewrite app_nil_r).
  - destruct files; simpl; now rewrite app_nil_r.
  - destruct o as [data | err]; simpl; [destruct (truthy (last_analysis data)) |];
      reflexivity.
  - unfold handleSendMessage.
    destruct (nonempty (trim (input s))); simpl; [reflexivity | now rewrite app_nil_r].
  - destruct o as [data | err]; simpl; [destruct (truthy (last_analysis data)) |];
      reflexivity.
Qed.

Lemma run_messages (es : list Event) :
  forall s, messages (run es s) = messages s ++ transcript_of es s.
Proof.
  induction es as [| e es IH]; intros s; simpl.
  - now rewrite app_nil_r.
  - now rewrite IH, step_messages, app_assoc.
Qed.

Lemma run_app (es1 es2 : list Event) :
  forall s, run (es1 ++ es2) s = run es2 (run es1 s).
Proof.
  induction es1 as [| e es1 IH]; intros s; simpl; [reflexivity | apply IH].
Qed.

(** The store holds the record it started with or one a later event put. *)
Lemma latest_origin (es : list Event) :
  forall a, latest es a = a \/ exists e, In e es /\ put_of e = Some (latest es a).
Proof.
  induction es as [| e es IH]; intros a; simpl; [now left |].
  destruct (put_of e) as [a' |] eqn:Hput.
  - destruct (IH a') as [Heq | [e' [Hin Hp]]].
    + right. exists e. split; [now left | now rewrite Heq].
    + right. exists e'. split; [now right | exact Hp].
  - destruct (IH a) as [Heq | [e' [Hin Hp]]].
    + now left.
    + right. exists e'. split; [now right | exact Hp].
Qed.

Lemma put_truthy (e : Event) (a : value) : put_of e = Some a -> truthy a = true.
Proof.
  destruct e as [files | [data | err] | | [data | err] | v | v]; simpl;
    try discriminate;
    destruct (truthy (last_analysis data)) eqn:Ht; try discriminate;
    intros H; injection H as <-; exact Ht.
Qed.

Lemma truthy_not_null (a : value) : truthy a = true -> a <> Null.
Proof. intros Ht ->. discriminate Ht. Qed.

(** ** The analysis store *)

Lemma occur_lastAnalysis (o : Occurrence) (c : Component) :
  lastAnalysis (current (fst (occur o c)))
  = latest (handled [o]) (lastAnalysis (current c)).
Proof.
  destruct o as [e |]; [| reflexivity].
  assert (Hstep := step_lastAnalysis e (current c)).
  destruct e as [files | o | | o | v | v]; try exact Hstep.
  simpl. unfold handleSendMessage_queued.
  destruct (negb (nonempty (trim (input (rendered c))))); reflexivity.
Qed.

Lemma occur_all_lastAnalysis (os : list Occurrence) :
  forall c, lastAnalysis (current (occur_all os c))
            = latest (handled os) (lastAnalysis (current c)).
Proof.
  induction os as [| o os IH]; intros c; [reflexivity |].
  simpl occur_all. rewrite IH, occur_lastAnalysis.
  destruct o as [e |]; reflexivity.
Qed.

Lemma handleSendMessage_queued_sends (c : Component) (body : ChatBody) :
  In (Post (Chat body)) (snd (handleSendMessage_queued c)) ->
  nonempty (trim (input (rendered c))) = true
  /\ body = {| chat_message := trim (input (rendered c));
               chat_location := location_field (location (rendered c));
               chat_last_analysis := lastAnalysis (rendered c) |}.
Proof.
  unfold handleSendMessage_queued.
  destruct (nonempty (trim (input (rendered c)))) eqn:E; simpl; [| intros []].
  intros [Heq | []]. injection Heq as <-. now split.
Qed.

(** When every event is followed by the re-render, the component goes
    through the states of [run]. *)
Lemma occur_committed (e : Event) (s : State) :
  occur (Handle e) (committed s)
  = ({| rendered := s; current := fst (step e s) |}, snd (step e s)).
Proof.
  destruct e as [files | o | | o | v | v]; try reflexivity.
  simpl. unfold handleSendMessage_queued, handleSendMessage. simpl.
  destruct (negb (nonempty (trim (input s)))); reflexivity.
Qed.

Lemma rendering_each_run (es : list Event) :
  forall s, occur_all (rendering_each es) (committed s) = committed (run es s).
Proof.
  induction es as [| e es IH]; intros s; [reflexivity |].
  change (rendering_each (e :: es))
    with (Handle e :: Commit :: rendering_each es).
  cbn [occur_all]. rewrite occur_committed. apply IH.
Qed.

(** C1, as the spec states it, fails in two ways.  A chat request sent
    after the upload's analysis is stored, but before React has
    rendered again, carries the analysis of the last render, here
    [null].  And the store keeps what the last handled response
    carried, whatever its age: a chat response that carries the mold
    analysis, handled after the upload that stored the crack analysis,
    puts the mold analysis back. *)
Lemma stale_analysis_read_and_restored :
  let upload a := UploadSettled (Resolved {| response := str "Analysed.";
                                             image_url := None;
                                             last_analysis := a |}) in
  let echo a := ChatSettled (Resolved {| response := str "It depends.";
                                         image_url := None;
                                         last_analysis := a |}) in
  let c := fst (occur (Handle (upload mold_analysis))
                  (committed (setInput (str "how bad is it?") initial))) in
  (lastAnalysis (current c) = mold_analysis
   /\ snd (occur (Handle SendPressed) c)
      = [Post (Chat {| chat_message := str "how bad is it?";
                       chat_location := None;
                       chat_last_analysis := Null |})])
  /\ (lastAnalysis
        (current (occur_all (rendering_each
           [upload mold_analysis; upload crack_analysis; echo mold_analysis])
           (committed initial)))
      = mold_analysis
      /\ mold_analysis <> crack_analysis).
Proof.
  repeat split. discriminate.
Qed.

(** C1, amended.  Once a successful /upload-image or /chat response
    carrying an analysis has been handled, the stored [lastAnalysis] is
    exactly that record; after any further occurrences it is that
    record or the one carried by the last response handled since (the
    last handled wins, no timestamp is compared).  A chat request
    carries the [lastAnalysis] of the last committed render: the stored
    record when it is sent after React has rendered again. *)
Theorem store_holds_last_handled (c : Component) (data : ResponseData)
    (e : Event) (later : list Occurrence) :
  truthy (last_analysis data) = true ->
  e = UploadSettled (Resolved data) \/ e = ChatSettled (Resolved data) ->
  let c1 := fst (occur (Handle e) c) in
  let c2 := occur_all later c1 in
  let stored := latest (handled later) (last_analysis data) in
  lastAnalysis (current c1) = last_analysis data
  /\ lastAnalysis (current c2) = stored
  /\ (stored = last_analysis data
      \/ exists e', In e' (handled later) /\ put_of e' = Some stored)
  /\ (forall body,
        In (Post (Chat body))
           (snd (occur (Handle SendPressed) (fst (occur Commit c2)))) ->
        chat_last_analysis body = stored)
  /\ (forall c' body,
        In (Post (Chat body)) (snd (occur (Handle SendPressed) c')) ->
        chat_last_analysis body = lastAnalysis (rendered c')).
Proof.
  intros Ht He c1 c2 stored.
  assert (Hput : put_of e = Some (last_analysis data))
    by (destruct He as [-> | ->]; simpl; now rewrite Ht).
  assert (H1 : lastAnalysis (current c1) = last_analysis data).
  { subst c1. rewrite occur_lastAnalysis. simpl. now rewrite Hput. }
  assert (H2 : lastAnalysis (current c2) = stored).
  { subst c2 stored. now rewrite occur_all_lastAnalysis, H1. }
  split; [exact H1 |]. split; [exact H2 |]. split; [apply latest_origin |].
  split.
  - intros body Hin. simpl in Hin.
    destruct (@handleSendMessage_queued_sends _ _ Hin) as [_ ->]. simpl. exact H2.
  - intros c' body Hin. simpl in Hin.
    now destruct (@handleSendMessage_queued_sends _ _ Hin) as [_ ->].
Qed.

Lemma store_holds_last_handled_witness :
  let data := {| response := str "Mold detected."; image_url := None;
                 last_analysis := mold_analysis |} in
  let c := occur_all [Handle (UploadSettled (Resolved data)); Commit;
                      Handle (InputChanged (str "how bad is it?")); Commit]
             (committed initial) in
  lastAnalysis (current c) = mold_analysis
  /\ snd (occur (Handle SendPressed) c)
     = [Post (Chat {| chat_message := str "how bad is it?"; chat_location := None;
                      chat_last_analysis := mold_analysis |})].
Proof.
  intros data c.
  destruct (@store_holds_last_handled (committed initial) data
              (UploadSettled (Resolved data))
              [Commit; Handle (InputChanged (str "how bad is it?")); Commit]
              eq_refl (or_introl eq_refl))
    as [_ [Hstored _]].
  split; [exact Hstored | reflexivity].
Defined.

(** C8 (the stored analysis never goes back to null).  An event leaves
    [lastAnalysis] as it is or replaces it with the truthy
    [last_analysis] of a successful response; a response without one
    leaves it in place; so from a non-null analysis every run ends in a
    non-null analysis. *)
Theorem analysis_stays_set (s : State) (es : list Event) :
  lastAnalysis s <> Null ->
  lastAnalysis (run es s) <> Null
  /\ (forall e s',
        lastAnalysis (fst (step e s')) = lastAnalysis s'
        \/ exists data,
             (e = UploadSettled (Resolved data) \/ e = ChatSettled (Resolved data))
             /\ truthy (last_analysis data) = true
             /\ lastAnalysis (fst (step e s')) = last_analysis data)
  /\ (forall data s',
        truthy (last_analysis data) = false ->
        lastAnalysis (fst (onDrop_settled (Resolved data) s')) = lastAnalysis s'
        /\ lastAnalysis (fst (handleSendMessage_settled (Resolved data) s'))
           = lastAnalysis s').
Proof.
  intros Hs. repeat split.
  - rewrite run_lastAnalysis.
    destruct (latest_origin es (lastAnalysis s)) as [-> | [e [_ Hp]]];
      [exact Hs | exact (truthy_not_null (put_truthy e Hp))].
  - intros e s'. rewrite step_lastAnalysis.
    destruct e as [files | [data | err] | | [data | err] | v | v]; simpl;
      try (now left);
      destruct (truthy (last_analysis data)) eqn:Ht; try (now left);
      right; exists data; auto.
  - simpl. now rewrite H.
  - simpl. now rewrite H.
Qed.

Lemma analysis_stays_set_witness :
  let s := setLastAnalysis mold_analysis initial in
  let no_analysis := {| response := str "It depends on the region.";
                        image_url := None; last_analysis := Undefined |} in
  lastAnalysis
    (run [InputChanged (str "cost?"); SendPressed;
          ChatSettled (Resolved no_analysis);
          Dropped [{| file_name := str "wall.png"; file_type := str "image/png" |}];
          UploadSettled (Rejected (str "Network Error"))] s) <> Null.
Proof.
  intros s no_analysis.
  refine (proj1 (@analysis_stays_set s _ _)).
  discriminate.
Defined.

(** ** The transcript *)

(** C6 (append-only transcript).  Every event, and so every run of
    events, leaves the existing turns where they are and only adds the
    turns of its events, in the order the events happen. *)
Theorem transcript_append_only (es : list Event) (s : State) :
  messages (run es s) = messages s ++ transcript_of es s
  /\ firstn (List.length (messages s)) (messages (run es s)) = messages s
  /\ (forall e s', messages (fst (step e s')) = messages s' ++ appended e s').
Proof.
  repeat split.
  - apply run_messages.
  - rewrite run_messages, firstn_app, Nat.sub_diag, firstn_all. simpl.
    now rewrite app_nil_r.
  - intros e s'. apply step_messages.
Qed.

(** C10 (the user's turn is kept when the request fails).  For a
    message that is not blank, the first piece of [handleSendMessage]
    appends the user's turn, clears the input and sends the request;
    when the request then fails the continuation appends the error
    reply after it, whatever other events came in between. *)
Theorem user_turn_survives_failure (s : State) :
  nonempty (trim (input s)) = true ->
  let turn := {| type := user; content := trim (input s); imageUrl := None |} in
  let sorry := {| type := bot; content := chat_error_text; imageUrl := None |} in
  let s1 := fst (handleSendMessage s) in
  messages s1 = messages s ++ [turn]
  /\ input s1 = []
  /\ (exists body, snd (handleSendMessage s) = [Post (Chat body)]
                   /\ chat_message body = trim (input s))
  /\ (forall error,
        messages (fst (handleSendMessage_settled (Rejected error) s1))
        = messages s ++ [turn; sorry])
  /\ (forall between error,
        messages (run (SendPressed :: between ++ [ChatSettled (Rejected error)]) s)
        = messages s ++ [turn] ++ transcript_of between s1 ++ [sorry]).
Proof.
  intros Hne turn sorry s1.
  assert (Hs1 : messages s1 = messages s ++ [turn]).
  { subst s1 turn. unfold handleSendMessage. now rewrite Hne. }
  repeat split.
  - exact Hs1.
  - subst s1. unfold handleSendMessage. now rewrite Hne.
  - unfold handleSendMessage. rewrite Hne. simpl. eexists. split; reflexivity.
  - intros error. simpl. rewrite Hs1, <- app_assoc. reflexivity.
  - intros between error.
    change (run (SendPressed :: between ++ [ChatSettled (Rejected error)]) s)
      with (run (between ++ [ChatSettled (Rejected error)]) s1).
    rewrite run_app. simpl. rewrite run_messages, Hs1.
    now rewrite <- !app_assoc.
Qed.

Lemma user_turn_survives_failure_witness :
  messages (run [InputChanged (str "  is this mold? "); SendPressed;
                 ChatSettled (Rejected (str "timeout of 0ms exceeded"))] initial)
  = [ {| type := user; content := str "is this mold?"; imageUrl := None |};
      {| type := bot; content := chat_error_text; imageUrl := None |} ].
Proof.
  exact (proj2 (proj2 (proj2 (proj2
    (@user_turn_survives_failure
       (setInput (str "  is this mold? ") initial) eq_refl))))
    [] (str "timeout of 0ms exceeded")).
Defined.

(** ** Blank messages *)

(** C4, as the spec states it, fails: a blank message gets no reply at
    all.  The handler sends no request and the transcript has no bot
    turn afterwards. *)
Lemma blank_message_gets_no_reply :
  let s := setInput (str "   ") initial in
  snd (handleSendMessage s) = []
  /\ ~ (exists turn, In turn (messages (fst (handleSendMessage s)))
                     /\ type turn = bot).
Proof.
  split; [reflexivity |].
  intros [turn [[] _]].
Qed.

(** C4, amended.  For an input that is empty once trimmed,
    [handleSendMessage] returns at its first line: the state, with its
    transcript and its [lastAnalysis], is unchanged and nothing is sent;
    the Send button is disabled for such an input. *)
Theorem blank_message_ignored (s : State) :
  nonempty (trim (input s)) = false ->
  handleSendMessage s = (s, [])
  /\ messages (fst (step SendPressed s)) = messages s
  /\ lastAnalysis (fst (step SendPressed s)) = lastAnalysis s
  /\ send_disabled s = true.
Proof.
  intros Hblank. unfold send_disabled. simpl. unfold handleSendMessage.
  rewrite Hblank. simpl. repeat split. apply orb_true_r.
Qed.

Lemma blank_message_ignored_witness :
  let s := setLastAnalysis mold_analysis
             (setInput [32; 9; 10; 160]%N initial) in
  handleSendMessage s = (s, []).
Proof.
  intros s. exact (proj1 (@blank_message_ignored s eq_refl)).
Defined.

(** ** Failed requests *)

(** C5, as the spec states it, fails: the reply after a failed chat
    request quotes nothing of the stored analysis, and is the reply a
    session without an analysis gets. *)
Lemma fallback_ignores_analysis :
  let s := setLastAnalysis mold_analysis initial in
  let failed := ChatSettled (Rejected (str "timeout of 30000ms exceeded")) in
  appended failed s
  = [ {| type := bot; content := chat_error_text; imageUrl := None |} ]
  /\ references chat_error_text (lastAnalysis s) = false
  /\ appended failed s = appended failed initial.
Proof. repeat split. Qed.

(** C5, amended.  When a request fails, the continuation appends one
    bot turn with the handler's fixed apology, the same for every state
    and every error; the error goes to the console only; [lastAnalysis]
    is unchanged and [loading] is reset.  The continuation is total, so
    nothing is thrown to the caller. *)
Theorem failure_gives_fixed_reply (s : State) (error : jsstring) :
  (let r := onDrop_settled (Rejected error) s in
   messages (fst r)
   = messages s ++ [ {| type := bot; content := upload_error_text; imageUrl := None |} ]
   /\ lastAnalysis (fst r) = lastAnalysis s
   /\ loading (fst r) = false
   /\ snd r = [ConsoleError (str "Error uploading image:") error])
  /\ (let r := handleSendMessage_settled (Rejected error) s in
      messages (fst r)
      = messages s ++ [ {| type := bot; content := chat_error_text; imageUrl := None |} ]
      /\ lastAnalysis (fst r) = lastAnalysis s
      /\ loading (fst r) = false
      /\ snd r = [ConsoleError (str "Error sending message:") error])
  /\ (forall s' error',
        appended (UploadSettled (Rejected error)) s
        = appended (UploadSettled (Rejected error')) s'
        /\ appended (ChatSettled (Rejected error)) s
           = appended (ChatSettled (Rejected error')) s').
Proof. repeat split. Qed.

(** ** Building the chat request *)

(** C7 (location hint).  The chat request carries the location exactly
    as typed when the field is not empty, and has no location property
    when it is empty. *)
Theorem location_attached_verbatim (s : State) :
  nonempty (trim (input s)) = true ->
  exists body,
    snd (handleSendMessage s) = [Post (Chat body)]
    /\ (location s = [] -> chat_location body = None)
    /\ (location s <> [] -> chat_location body = Some (location s)).
Proof.
  intros Hne. unfold handleSendMessage. rewrite Hne. simpl.
  eexists. split; [reflexivity |]. simpl. unfold location_field.
  destruct (location s); simpl; split; congruence.
Qed.

Lemma location_attached_verbatim_witness :
  exists body,
    snd (handleSendMessage
           (setLocation (str " Pune, IN ") (setInput (str "cost?") initial)))
    = [Post (Chat body)]
    /\ chat_location body = Some (str " Pune, IN ").
Proof.
  destruct (@location_attached_verbatim
              (setLocation (str " Pune, IN ") (setInput (str "cost?") initial))
              eq_refl) as [body [Hpost [_ Hsome]]].
  exists body. split; [exact Hpost | apply Hsome; discriminate].
Defined.

(** ** Uploading *)

(** C9 (upload handler).  With no accepted file [onDrop] changes
    nothing and sends nothing; otherwise it sends one upload request,
    for the first file; the dropzone takes image files, one per drop. *)
Theorem upload_first_file_only (s : State) (file : File) (rest : list File) :
  onDrop [] s = (s, [])
  /\ snd (onDrop (file :: rest) s) = [Post (UploadImage file)]
  /\ messages (fst (onDrop (file :: rest) s)) = messages s
  /\ lastAnalysis (fst (onDrop (file :: rest) s)) = lastAnalysis s
  /\ maxFiles dropzone = 1%nat
  /\ map fst (accept dropzone) = [str "image/*"].
Proof. repeat split. Qed.

(** * Properties of the feature normalizer *)

Section NormalizeFacts.

Import Normalizer.

Variable taxonomy : jsstring -> option Label.
Variables high_band medium_band : Q.

Local Abbreviation canonical := (canonical taxonomy).
Local Abbreviation merged := (merged taxonomy).
Local Abbreviation best := (best taxonomy).
Local Abbreviation issue_of := (issue_of high_band medium_band).
Local Abbreviation normalize := (normalize taxonomy high_band medium_band).

Lemma Label_eqb_eq (a b : Label) : Label_eqb a b = true <-> a = b.
Proof.
  unfold Label_eqb. rewrite Nat.eqb_eq.
  split; [| now intros ->].
  destruct a, b; simpl; intros H; try reflexivity; discriminate H.
Qed.

Lemma Label_eqb_refl (a : Label) : Label_eqb a a = true.
Proof. now apply Label_eqb_eq. Qed.

Lemma Label_eqb_neq (a b : Label) : Label_eqb a b = false <-> a <> b.
Proof.
  rewrite <- Label_eqb_eq. destruct (Label_eqb a b); split; congruence.
Qed.

Lemma Label_eq_dec (a b : Label) : {a = b} + {a <> b}.
Proof. decide equality. Defined.

Lemma priority_inj (a b : Label) : priority a = priority b -> a = b.
Proof. intros H. apply Label_eqb_eq. unfold Label_eqb. now apply Nat.eqb_eq. Qed.

Lemma clamp_in_range (q : Q) : (0 <= q)%Q -> (q <= 1)%Q -> clamp q = q.
Proof.
  intros H0 H1. unfold clamp.
  apply Qle_bool_iff in H0. apply Qle_bool_iff in H1.
  now rewrite H0, H1.
Qed.

(** *** Merging *)

Lemma merge_keys (l : Label) (c : Q) (acc : list (Label * Q)) :
  forall l', In l' (map fst (merge l c acc)) <-> l' = l \/ In l' (map fst acc).
Proof.
  induction acc as [| [l0 c0] rest IH]; intros l'; simpl.
  - intuition.
  - destruct (Label_eqb l l0) eqn:E; simpl.
    + apply Label_eqb_eq in E. subst l0. intuition.
    + rewrite IH. intuition.
Qed.

Lemma merge_NoDup (l : Label) (c : Q) (acc : list (Label * Q)) :
  NoDup (map fst acc) -> NoDup (map fst (merge l c acc)).
Proof.
  induction acc as [| [l0 c0] rest IH]; simpl; intros Hnd.
  - constructor; [intros [] | constructor].
  - inversion Hnd as [| ? ? Hnotin Hrest]; subst.
    destruct (Label_eqb l l0) eqn:E; simpl.
    + constructor; assumption.
    + constructor; [| now apply IH].
      rewrite merge_keys. intros [-> | Hin]; [| now apply Hnotin].
      rewrite Label_eqb_refl in E. discriminate E.
Qed.

Lemma lookup_merge (l : Label) (c : Q) (acc : list (Label * Q)) (l' : Label) :
  lookup l' (merge l c acc)
  = if Label_eqb l l'
    then Some (match lookup l' acc with Some c' => qmax c' c | None => c end)
    else lookup l' acc.
Proof.
  induction acc as [| [l0 c0] rest IH]; simpl.
  - rewrite (Bool.eq_true_iff_eq (Label_eqb l' l) (Label_eqb l l')).
    + now destruct (Label_eqb l l').
    + rewrite !Label_eqb_eq. split; congruence.
  - destruct (Label_eqb l l0) eqn:E0; simpl.
    + apply Label_eqb_eq in E0. subst l0.
      destruct (Label_eqb l l') eqn:E1.
      * apply Label_eqb_eq in E1. subst l'. now rewrite Label_eqb_refl.
      * destruct (Label_eqb l' l) eqn:E2; [| reflexivity].
        apply Label_eqb_eq in E2. subst l'.
        rewrite Label_eqb_refl in E1. discriminate E1.
    + destruct (Label_eqb l' l0) eqn:E1.
      * apply Label_eqb_eq in E1. subst l0. now rewrite E0.
      * exact IH.
Qed.

Lemma lookup_In (l : Label) (acc : list (Label * Q)) (c : Q) :
  lookup l acc = Some c -> In (l, c) acc.
Proof.
  induction acc as [| [l0 c0] rest IH]; simpl; [discriminate |].
  destruct (Label_eqb l l0) eqn:E.
  - apply Label_eqb_eq in E. subst l0. intros H. injection H as ->. now left.
  - intros H. right. now apply IH.
Qed.

Lemma fold_merge_keys (raw : list (jsstring * Q)) :
  forall acc l',
    In l' (map fst (fold_left
             (fun acc d => merge (canonical (fst d)) (clamp (snd d)) acc) raw acc))
    <-> In l' (map fst acc) \/ exists d, In d raw /\ canonical (fst d) = l'.
Proof.
  induction raw as [| d rest IH]; intros acc l'; simpl.
  - split; [now left | intros [H | [d [[] _]]]; exact H].
  - rewrite IH, merge_keys. split.
    + intros [[-> | Hin] | [d' [Hin Hc]]].
      * right. exists d. auto.
      * now left.
      * right. exists d'. auto.
    + intros [Hin | [d' [[<- | Hin] Hc]]].
      * left. now right.
      * left. left. now symmetry.
      * right. exists d'. auto.
Qed.

Lemma fold_merge_NoDup (raw : list (jsstring * Q)) :
  forall acc,
    NoDup (map fst acc) ->
    NoDup (map fst (fold_left
             (fun acc d => merge (canonical (fst d)) (clamp (snd d)) acc) raw acc)).
Proof.
  induction raw as [| d rest IH]; intros acc Hnd; simpl; [exact Hnd |].
  apply IH, merge_NoDup, Hnd.
Qed.

Lemma fold_merge_lookup (raw : list (jsstring * Q)) :
  forall acc l,
    lookup l (fold_left
                (fun acc d => merge (canonical (fst d)) (clamp (snd d)) acc) raw acc)
    = best l raw (lookup l acc).
Proof.
  induction raw as [| d rest IH]; intros acc l; simpl; [reflexivity |].
  now rewrite IH, lookup_merge.
Qed.

Lemma best_app (l : Label) (a b : list (jsstring * Q)) :
  forall init, best l (a ++ b) init = best l b (best l a init).
Proof.
  induction a as [| d a IH]; intros init; simpl; [reflexivity | apply IH].
Qed.

Lemma best_skip (l : Label) (raw : list (jsstring * Q)) :
  (forall d, In d raw -> canonical (fst d) <> l) ->
  forall init, best l raw init = init.
Proof.
  induction raw as [| d rest IH]; intros Hno init; simpl; [reflexivity |].
  assert (E : Label_eqb (canonical (fst d)) l = false)
    by (apply Label_eqb_neq, Hno; now left).
  rewrite E. apply IH. intros d' Hin. apply Hno. now right.
Qed.

(** *** Sorting *)

Lemma before_spec (a b : Issue) :
  before a b = true <->
  (confidence b < confidence a)%Q
  \/ ((confidence a == confidence b)%Q
      /\ (priority (label a) <= priority (label b))%nat).
Proof.
  unfold before.
  rewrite orb_true_iff, andb_true_iff, negb_true_iff, Qeq_bool_iff, Nat.leb_le.
  split; (intros [H | H]; [left | now right]).
  - apply Qnot_le_lt. intros Hle. apply Qle_bool_iff in Hle. congruence.
  - destruct (Qle_bool (confidence a) (confidence b)) eqn:E; [| reflexivity].
    apply Qle_bool_iff in E. lra.
Qed.

Lemma before_total (a b : Issue) : before a b = false -> before b a = true.
Proof.
  intros Hf. apply before_spec.
  destruct (Qlt_le_dec (confidence a) (confidence b)) as [Hlt | Hle]; [now left |].
  destruct (Qlt_le_dec (confidence b) (confidence a)) as [Hlt' | Hle'].
  - assert (Ht : before a b = true) by (apply before_spec; now left). congruence.
  - right. split; [lra |].
    destruct (Nat.le_gt_cases (priority (label b)) (priority (label a)))
      as [Hp | Hp]; [exact Hp |].
    assert (Ht : before a b = true)
      by (apply before_spec; right; split; [lra | lia]).
    congruence.
Qed.

Lemma before_trans (a b c : Issue) :
  before a b = true -> before b c = true -> before a c = true.
Proof.
  rewrite !before_spec.
  intros [Hab | [Hab Pab]] [Hbc | [Hbc Pbc]].
  - left. lra.
  - left. lra.
  - left. lra.
  - right. split; [lra | lia].
Qed.

Lemma insert_perm (x : Issue) (l : list Issue) : Permutation (insert x l) (x :: l).
Proof.
  induction l as [| y rest IH]; simpl; [reflexivity |].
  destruct (before x y); [reflexivity |].
  rewrite IH. apply perm_swap.
Qed.

Lemma sort_perm (l : list Issue) : Permutation (sort l) l.
Proof.
  induction l as [| x rest IH]; simpl; [reflexivity |].
  rewrite insert_perm. now constructor.
Qed.

Lemma insert_sorted (x : Issue) (l : list Issue) :
  StronglySorted (fun a b => before a b = true) l ->
  StronglySorted (fun a b => before a b = true) (insert x l).
Proof.
  induction l as [| y rest IH]; simpl; intros Hs.
  - constructor; constructor.
  - inversion Hs as [| ? ? Hrest Hall]; subst.
    destruct (before x y) eqn:E.
    + constructor; [exact Hs |].
      constructor; [exact E |].
      rewrite Forall_forall in *. intros z Hz.
      apply before_trans with y; [exact E | now apply Hall].
    + constructor; [now apply IH |].
      rewrite Forall_forall in *. intros z Hz.
      apply (Permutation_in _ (insert_perm x rest)) in Hz.
      destruct Hz as [<- | Hz]; [now apply before_total | now apply Hall].
Qed.

Lemma sort_sorted (l : list Issue) :
  StronglySorted (fun a b => before a b = true) (sort l).
Proof.
  induction l as [| x rest IH]; simpl; [constructor | now apply insert_sorted].
Qed.

Lemma before_precedes (a b : Issue) :
  before a b = true -> label a <> label b -> precedes a b.
Proof.
  rewrite before_spec. intros [Hlt | [Heq Hp]] Hne; split.
  - lra.
  - intros Heq. lra.
  - lra.
  - intros _.
    destruct (Nat.eq_dec (priority (label a)) (priority (label b))) as [E | E];
      [now apply priority_inj in E | lia].
Qed.

Lemma sorted_distinct_precedes (l : list Issue) :
  StronglySorted (fun a b => before a b = true) l ->
  NoDup (map label l) ->
  StronglySorted precedes l.
Proof.
  induction l as [| a rest IH]; intros Hs Hnd; [constructor |].
  inversion Hs as [| ? ? Hrest Hall]; subst.
  simpl in Hnd. inversion Hnd as [| ? ? Hnotin Hnd']; subst.
  constructor; [now apply IH |].
  rewrite Forall_forall in *. intros b Hb.
  apply before_precedes; [now apply Hall |].
  intros Heq. apply Hnotin. rewrite Heq. now apply in_map.
Qed.

(** *** The output of [normalize] *)

Lemma normalize_labels (raw : list (jsstring * Q)) :
  Permutation (map label (normalize raw)) (map fst (merged raw)).
Proof.
  unfold Normalizer.normalize.
  rewrite (Permutation_map label (sort_perm _)), map_map. simpl.
  now rewrite map_ext with (g := fst).
Qed.

Lemma normalize_NoDup (raw : list (jsstring * Q)) :
  NoDup (map label (normalize raw)).
Proof.
  apply (Permutation_NoDup (Permutation_sym (normalize_labels raw))).
  apply fold_merge_NoDup. constructor.
Qed.

Lemma normalize_has_label (raw : list (jsstring * Q)) (l : Label) :
  In l (map label (normalize raw))
  <-> exists d, In d raw /\ canonical (fst d) = l.
Proof.
  assert (Hperm := normalize_labels raw).
  transitivity (In l (map fst (merged raw))).
  - split; apply Permutation_in; [exact Hperm | now apply Permutation_sym].
  - unfold Normalizer.merged. rewrite fold_merge_keys. simpl. intuition.
Qed.

Lemma normalize_lookup (raw : list (jsstring * Q)) (l : Label) (c : Q) :
  best l raw None = Some c ->
  exists i, In i (normalize raw) /\ label i = l /\ confidence i = c.
Proof.
  intros Hbest. exists (issue_of (l, c)). repeat split.
  apply (Permutation_in _ (Permutation_sym (sort_perm _))).
  apply in_map, lookup_In.
  unfold Normalizer.merged. now rewrite fold_merge_lookup.
Qed.

Lemma NoDup_map_unique (A B : Type) (f : A -> B) (l : list A) (x y : A) :
  NoDup (map f l) -> In x l -> In y l -> f x = f y -> x = y.
Proof.
  induction l as [| a rest IH]; simpl; intros Hnd Hx Hy Hf; [destruct Hx |].
  inversion Hnd as [| ? ? Hnotin Hnd']; subst.
  destruct Hx as [-> | Hx], Hy as [-> | Hy].
  - reflexivity.
  - exfalso. apply Hnotin. rewrite Hf. now apply in_map.
  - exfalso. apply Hnotin. rewrite <- Hf. now apply in_map.
  - now apply IH.
Qed.

Lemma In_lookup (l : Label) (c : Q) (acc : list (Label * Q)) :
  NoDup (map fst acc) -> In (l, c) acc -> lookup l acc = Some c.
Proof.
  induction acc as [| [l0 c0] rest IH]; simpl; intros Hnd Hin; [destruct Hin |].
  inversion Hnd as [| ? ? Hnotin Hnd']; subst.
  destruct Hin as [Heq | Hin].
  - injection Heq as -> ->. now rewrite Label_eqb_refl.
  - destruct (Label_eqb l l0) eqn:E; [| now apply IH].
    apply Label_eqb_eq in E. subst l0.
    exfalso. apply Hnotin. change l with (fst (l, c)). now apply in_map.
Qed.

Lemma normalize_In_best (raw : list (jsstring * Q)) (i : Issue) :
  In i (normalize raw) -> best (label i) raw None = Some (confidence i).
Proof.
  intros Hin. apply (Permutation_in _ (sort_perm _)) in Hin.
  apply in_map_iff in Hin. destruct Hin as [[l c] [<- Hin]]. simpl.
  assert (Hfold := fold_merge_lookup raw [] l). simpl in Hfold.
  rewrite <- Hfold.
  apply In_lookup; [| exact Hin].
  apply fold_merge_NoDup. constructor.
Qed.

Lemma qmax_cases (a b : Q) : qmax a b = a \/ qmax a b = b.
Proof. unfold qmax. destruct (Qle_bool a b); auto. Qed.

Lemma qmax_upper (a b : Q) : (a <= qmax a b)%Q /\ (b <= qmax a b)%Q.
Proof.
  unfold qmax. destruct (Qle_bool a b) eqn:E.
  - apply Qle_bool_iff in E. split; lra.
  - split; [lra |].
    destruct (Qlt_le_dec b a) as [H | H]; [lra |].
    apply Qle_bool_iff in H. congruence.
Qed.

Lemma best_attained (l : Label) (raw : list (jsstring * Q)) :
  forall init c,
    best l raw init = Some c ->
    init = Some c
    \/ exists d, In d raw /\ canonical (fst d) = l /\ c = clamp (snd d).
Proof.
  induction raw as [| d rest IH]; intros init c; simpl; [now left |].
  intros Hb. apply IH in Hb.
  destruct Hb as [Hinit | [d' [Hin [Hc Hv]]]];
    [| right; exists d'; auto].
  destruct (Label_eqb (canonical (fst d)) l) eqn:E; [| now left].
  apply Label_eqb_eq in E. injection Hinit as Hinit.
  destruct init as [c0 |].
  - destruct (qmax_cases c0 (clamp (snd d))) as [Hq | Hq]; rewrite Hq in Hinit.
    + left. now subst.
    + right. exists d. auto.
  - right. exists d. auto.
Qed.

Lemma best_upper (l : Label) (raw : list (jsstring * Q)) :
  forall init c,
    best l raw init = Some c ->
    (forall c0, init = Some c0 -> (c0 <= c)%Q)
    /\ (forall d, In d raw -> canonical (fst d) = l -> (clamp (snd d) <= c)%Q).
Proof.
  induction raw as [| d rest IH]; intros init c; simpl.
  - intros ->. split; [| intros d []].
    intros c0 H. injection H as ->. lra.
  - intros Hb. apply IH in Hb. destruct Hb as [Hinit Hrest].
    destruct (Label_eqb (canonical (fst d)) l) eqn:E.
    + destruct init as [c1 |].
      * specialize (Hinit _ eq_refl).
        destruct (qmax_upper c1 (clamp (snd d))) as [H1 H2].
        split.
        -- intros c0 H. injection H as ->. lra.
        -- intros d' [<- | Hin] Hc; [lra | now apply Hrest].
      * specialize (Hinit _ eq_refl).
        split; [discriminate |].
        intros d' [<- | Hin] Hc; [exact Hinit | now apply Hrest].
    + apply Label_eqb_neq in E. split; [exact Hinit |].
      intros d' [<- | Hin] Hc; [contradiction | now apply Hrest].
Qed.

(** C2 (merge invariant).  In the output of [normalize] no label occurs
    twice and every label of the input occurs once; an issue's
    confidence is the largest (clamped) score among the detections of
    its label; when a label has two detections with scores [s1] and
    [s2], its issue's confidence is the larger of the two, which for
    scores within [0,1] is [max(s1, s2)]. *)
Theorem merge_invariant (raw : list (jsstring * Q)) :
  NoDup (map label (normalize raw))
  /\ (forall d, In d raw ->
        count_occ Label_eq_dec (map label (normalize raw)) (canonical (fst d))
        = 1%nat)
  /\ (forall i, In i (normalize raw) ->
        (exists d, In d raw /\ canonical (fst d) = label i
                   /\ confidence i = clamp (snd d))
        /\ (forall d, In d raw -> canonical (fst d) = label i ->
              (clamp (snd d) <= confidence i)%Q))
  /\ (forall pre mid post n1 s1 n2 s2,
        raw = pre ++ (n1, s1) :: mid ++ (n2, s2) :: post ->
        canonical n1 = canonical n2 ->
        (forall d, In d (pre ++ mid ++ post) -> canonical (fst d) <> canonical n1) ->
        exists i, In i (normalize raw) /\ label i = canonical n1
          /\ (forall j, In j (normalize raw) -> label j = canonical n1 -> j = i)
          /\ confidence i = qmax (clamp s1) (clamp s2)
          /\ ((0 <= s1 <= 1)%Q -> (0 <= s2 <= 1)%Q ->
              confidence i = qmax s1 s2)).
Proof.
  assert (Hnd := normalize_NoDup raw).
  split; [exact Hnd |]. split; [| split].
  - intros d Hin. apply NoDup_count_occ'; [exact Hnd |].
    apply normalize_has_label. now exists d.
  - intros i Hin. apply normalize_In_best in Hin. split.
    + destruct (best_attained _ _ _ Hin) as [H | H]; [discriminate H | exact H].
    + apply (best_upper _ _ _ Hin).
  - intros pre mid post n1 s1 n2 s2 -> Hsame Hother.
    assert (Hbest : best (canonical n1)
                      (pre ++ (n1, s1) :: mid ++ (n2, s2) :: post) None
                    = Some (qmax (clamp s1) (clamp s2))).
    { rewrite best_app.
      rewrite (best_skip (l := canonical n1) pre)
        by (intros d Hd; apply Hother; apply in_or_app; now left).
      simpl. rewrite Label_eqb_refl, best_app.
      rewrite (best_skip (l := canonical n1) mid)
        by (intros d Hd; apply Hother; apply in_or_app; right;
            apply in_or_app; now left).
      simpl. rewrite <- Hsame, Label_eqb_refl.
      apply best_skip. intros d Hd. apply Hother.
      apply in_or_app; right; apply in_or_app; now right. }
    destruct (normalize_lookup _ _ Hbest) as [i [Hin [Hl Hc]]].
    exists i. repeat split; try assumption.
    + intros j Hj Hlj.
      apply (NoDup_map_unique label (normalize _) j i Hnd Hj Hin). congruence.
    + intros [H1 H1'] [H2 H2']. now rewrite Hc, !clamp_in_range.
Qed.

(** C3 (ordering invariant).  In the output of [normalize] every issue
    has a confidence no smaller than that of any issue after it, and of
    two issues with equal confidence the one earlier in the taxonomy
    priority order comes first. *)
Theorem ordering_invariant (raw : list (jsstring * Q)) :
  StronglySorted precedes (normalize raw).
Proof.
  apply sorted_distinct_precedes; [apply sort_sorted | apply normalize_NoDup].
Qed.

End NormalizeFacts.

Lemma merge_invariant_witness :
  exists i,
    In i (Normalizer.normalize Normalizer.scenario_taxonomy 0.75 0.4
            Normalizer.scenario_A)
    /\ Normalizer.label i = Normalizer.water_damage
    /\ Normalizer.confidence i = 0.82%Q.
Proof.
  destruct (proj2 (proj2 (proj2
              (merge_invariant Normalizer.scenario_taxonomy 0.75 0.4
                 Normalizer.scenario_A)))
              [] [] [(str "crack", 0.3%Q)]
              (str "water stain") 0.82%Q (str "water stain") 0.5%Q
              eq_refl eq_refl)
    as [i [Hin [Hl [_ [Hc _]]]]].
  - intros d [<- | []]. vm_compute. discriminate.
  - exists i. repeat split; assumption.
Defined.

(** The spec's Scenario A under the default bands: the two water
    stains merge into one high-severity issue, ahead of the crack. *)
Example scenario_A_normalized :
  Normalizer.normalize Normalizer.scenario_taxonomy 0.75 0.4 Normalizer.scenario_A
  = [ {| Normalizer.label := Normalizer.water_damage;
         Normalizer.confidence := 0.82;
         Normalizer.severity := Normalizer.high |};
      {| Normalizer.label := Normalizer.structural_damage;
         Normalizer.confidence := 0.3;
         Normalizer.severity := Normalizer.low |} ].
Proof. reflexivity. Qed.

(** * Further properties of the chat client *)

(** ** Trimming *)

Lemma trimStart_clean (s : jsstring) : clean_start (trimStart s).
Proof.
  induction s as [| c rest IH]; simpl; [exact I |].
  destruct (is_whitespace c) eqn:E; [exact IH | exact E].
Qed.

Lemma trimStart_fixed (s : jsstring) : clean_start s -> trimStart s = s.
Proof. destruct s as [| c rest]; simpl; [reflexivity | now intros ->]. Qed.

Lemma trimStart_split (s : jsstring) :
  exists pre, s = pre ++ trimStart s /\ forallb is_whitespace pre = true.
Proof.
  induction s as [| c rest [pre [Heq Hws]]]; simpl.
  - now exists [].
  - destruct (is_whitespace c) eqn:E.
    + exists (c :: pre). simpl. rewrite E, Hws. split; [now f_equal | reflexivity].
    + now exists [].
Qed.

Lemma trimStart_nil (s : jsstring) :
  trimStart s = [] <-> forallb is_whitespace s = true.
Proof.
  induction s as [| c rest IH]; simpl; [tauto |].
  destruct (is_whitespace c); simpl; [exact IH | split; discriminate].
Qed.

Lemma forallb_rev (A : Type) (f : A -> bool) (l : list A) :
  forallb f (rev l) = forallb f l.
Proof.
  induction l as [| a l IH]; simpl; [reflexivity |].
  rewrite forallb_app, IH. simpl. rewrite andb_true_r. apply andb_comm.
Qed.

Lemma trimEnd_split (s : jsstring) :
  exists post, s = trimEnd s ++ post /\ forallb is_whitespace post = true.
Proof.
  destruct (trimStart_split (rev s)) as [pre [Heq Hws]].
  exists (rev pre). split; [| now rewrite forallb_rev].
  unfold trimEnd. rewrite <- rev_app_distr, <- Heq. symmetry. apply rev_involutive.
Qed.

Lemma trim_split (s : jsstring) :
  exists pre post,
    s = pre ++ trim s ++ post
    /\ forallb is_whitespace pre = true /\ forallb is_whitespace post = true.
Proof.
  destruct (trimStart_split s) as [pre [Hpre Hws]].
  destruct (trimEnd_split (trimStart s)) as [post [Hpost Hws']].
  exists pre, post. unfold trim. now rewrite <- Hpost.
Qed.

Lemma trim_clean_start (s : jsstring) : clean_start (trim s).
Proof.
  assert (Hc := trimStart_clean s).
  destruct (trimEnd_split (trimStart s)) as [post [Hpost _]].
  unfold trim. destruct (trimEnd (trimStart s)) as [| c rest]; [exact I |].
  rewrite Hpost in Hc. exact Hc.
Qed.

Lemma trim_clean_end (s : jsstring) : clean_start (rev (trim s)).
Proof.
  unfold trim, trimEnd. rewrite rev_involutive. apply trimStart_clean.
Qed.

Lemma trim_fixed (s : jsstring) :
  clean_start s -> clean_start (rev s) -> trim s = s.
Proof.
  intros Hs Hr. unfold trim, trimEnd.
  rewrite (trimStart_fixed _ Hs), (trimStart_fixed _ Hr). apply rev_involutive.
Qed.

Lemma trim_idempotent (s : jsstring) : trim (trim s) = trim s.
Proof. apply trim_fixed; [apply trim_clean_start | apply trim_clean_end]. Qed.

Lemma trim_nil (s : jsstring) :
  trim s = [] <-> forallb is_whitespace s = true.
Proof.
  split.
  - intros Hnil. destruct (trim_split s) as [pre [post [Heq [Hpre Hpost]]]].
    rewrite Heq, Hnil, !forallb_app, Hpre, Hpost. reflexivity.
  - intros Hws. apply trimStart_nil in Hws. unfold trim. now rewrite Hws.
Qed.

Lemma nonempty_false (s : jsstring) : nonempty s = false <-> s = [].
Proof. destruct s; simpl; split; congruence. Qed.

Lemma nonempty_true (s : jsstring) : nonempty s = true <-> s <> [].
Proof. destruct s; simpl; split; congruence. Qed.

Lemma handleSendMessage_sends (s : State) (body : ChatBody) :
  In (Post (Chat body)) (snd (handleSendMessage s)) ->
  nonempty (trim (input s)) = true
  /\ body = {| chat_message := trim (input s);
               chat_location := location_field (location s);
               chat_last_analysis := lastAnalysis s |}.
Proof.
  unfold handleSendMessage.
  destruct (nonempty (trim (input s))) eqn:E; simpl; [| intros []].
  intros [Heq | []]. injection Heq as <-. now split.
Qed.

(** X1.  The message a chat request carries is never empty and neither
    begins nor ends with white space (trimming it again changes
    nothing), and the user's turn added to the transcript shows exactly
    the message that was sent. *)
Theorem sent_message_is_trimmed (s : State) (body : ChatBody) :
  In (Post (Chat body)) (snd (handleSendMessage s)) ->
  chat_message body <> []
  /\ trim (chat_message body) = chat_message body
  /\ (forall c rest, chat_message body = c :: rest -> is_whitespace c = false)
  /\ (forall front c, chat_message body = front ++ [c] -> is_whitespace c = false)
  /\ messages (fst (handleSendMessage s))
     = messages s ++ [ {| type := user; content := chat_message body;
                          imageUrl := None |} ].
Proof.
  intros Hin. destruct (@handleSendMessage_sends s body Hin) as [Hne ->]. simpl.
  repeat split.
  - now apply nonempty_true.
  - apply trim_idempotent.
  - intros c rest Heq. assert (Hc := trim_clean_start (input s)).
    now rewrite Heq in Hc.
  - intros front c Heq. assert (Hc := trim_clean_end (input s)).
    now rewrite Heq, rev_app_distr in Hc.
  - unfold handleSendMessage. now rewrite Hne.
Qed.

Lemma sent_message_is_trimmed_witness :
  trim (str "is this mold?") = str "is this mold?".
Proof.
  refine (proj1 (proj2 (@sent_message_is_trimmed
    (setInput (str "  is this mold? ") initial)
    {| chat_message := str "is this mold?"; chat_location := None;
       chat_last_analysis := Null |} _))).
  left. reflexivity.
Defined.

(** X2.  [handleSendMessage] sends nothing exactly when every code unit
    of the input is white space (the empty input included); otherwise
    it sends exactly one chat request. *)
Theorem sends_iff_not_blank (s : State) :
  (snd (handleSendMessage s) = [] <-> forallb is_whitespace (input s) = true)
  /\ (forallb is_whitespace (input s) = false ->
      exists body, snd (handleSendMessage s) = [Post (Chat body)]).
Proof.
  rewrite <- trim_nil, <- nonempty_false. unfold handleSendMessage.
  destruct (nonempty (trim (input s))) eqn:E; simpl; split.
  - split; discriminate.
  - intros _. eexists. reflexivity.
  - tauto.
  - intros Hf. apply nonempty_false, trim_nil in E. congruence.
Qed.

Lemma sends_iff_not_blank_witness :
  exists body,
    snd (handleSendMessage (setInput (str " a ") initial)) = [Post (Chat body)].
Proof.
  exact (proj2 (sends_iff_not_blank (setInput (str " a ") initial)) eq_refl).
Defined.

(** X3.  The message sent is the input with white space removed at the
    two ends only: the input is some white space, then the message
    exactly as sent, then some white space. *)
Theorem sent_message_keeps_interior (s : State) (body : ChatBody) :
  In (Post (Chat body)) (snd (handleSendMessage s)) ->
  exists pre post,
    input s = pre ++ chat_message body ++ post
    /\ forallb is_whitespace pre = true
    /\ forallb is_whitespace post = true.
Proof.
  intros Hin. destruct (@handleSendMessage_sends s body Hin) as [_ ->]. simpl.
  apply trim_split.
Qed.

Lemma sent_message_keeps_interior_witness :
  exists pre post,
    str "  fix  the   roof " = pre ++ str "fix  the   roof" ++ post
    /\ forallb is_whitespace pre = true
    /\ forallb is_whitespace post = true.
Proof.
  refine (@sent_message_keeps_interior
    (setInput (str "  fix  the   roof ") initial)
    {| chat_message := str "fix  the   roof"; chat_location := None;
       chat_last_analysis := Null |} _).
  left. reflexivity.
Defined.

(** ** Pressing Send *)

(** X4.  Sending only queues the clearing of the input.  Once React
    has rendered again a further call of [handleSendMessage] does
    nothing; a second call from the same render sends the same request
    again and appends the user's turn a second time. *)
Theorem second_send_needs_rerender (c : Component) :
  nonempty (trim (input (rendered c))) = true ->
  let turn := {| type := user; content := trim (input (rendered c));
                 imageUrl := None |} in
  let c1 := fst (occur (Handle SendPressed) c) in
  occur (Handle SendPressed) (fst (occur Commit c1)) = (fst (occur Commit c1), [])
  /\ (exists body, snd (occur (Handle SendPressed) c) = [Post (Chat body)])
  /\ snd (occur (Handle SendPressed) c1) = snd (occur (Handle SendPressed) c)
  /\ messages (current (fst (occur (Handle SendPressed) c1)))
     = messages (current c) ++ [turn; turn].
Proof.
  intros Hne turn c1. subst c1 turn. simpl.
  unfold handleSendMessage_queued. rewrite Hne. simpl. rewrite Hne. simpl.
  repeat split.
  - eexists. reflexivity.
  - now rewrite <- app_assoc.
Qed.

Lemma second_send_needs_rerender_witness :
  let c := committed (setInput (str "cost?") initial) in
  messages (current (occur_all [Handle SendPressed; Handle SendPressed] c))
  = [ {| type := user; content := str "cost?"; imageUrl := None |};
      {| type := user; content := str "cost?"; imageUrl := None |} ]
  /\ messages (current (occur_all [Handle SendPressed; Commit; Handle SendPressed] c))
     = [ {| type := user; content := str "cost?"; imageUrl := None |} ].
Proof.
  intros c.
  destruct (@second_send_needs_rerender c eq_refl) as [Hafter [_ [_ Htwice]]].
  split; [exact Htwice |].
  cbn [occur_all]. fold c. now rewrite Hafter.
Defined.

Lemma str_eqb_eq (a b : jsstring) : str_eqb a b = true <-> a = b.
Proof.
  revert b. induction a as [| x a IH]; intros [| y b]; simpl;
    try (split; [discriminate | congruence]); [tauto |].
  rewrite andb_true_iff, N.eqb_eq, IH. split.
  - intros [-> ->]. reflexivity.
  - intros H. injection H as -> ->. now split.
Qed.

(** X5.  While a request is pending the Send button is disabled and a
    click on it does nothing, but Enter in the message field still
    calls [handleSendMessage]: a message typed meanwhile is sent, as a
    second request alongside the pending one. *)
Theorem enter_sends_while_loading (s : State) :
  loading s = true ->
  nonempty (trim (input s)) = true ->
  send_disabled s = true
  /\ onClick_send s = (s, [])
  /\ exists body,
       onKeyPress (str "Enter") false s
       = (true, (fst (handleSendMessage s), [Post (Chat body)]))
       /\ chat_message body = trim (input s).
Proof.
  intros Hl Hne.
  assert (Hd : send_disabled s = true) by (unfold send_disabled; now rewrite Hl).
  split; [exact Hd |]. split; [unfold onClick_send; now rewrite Hd |].
  unfold onKeyPress. simpl. unfold handleSendMessage. rewrite Hne. simpl.
  eexists. split; reflexivity.
Qed.

Lemma enter_sends_while_loading_witness :
  let s := setInput (str "and the roof?") (setLoading true initial) in
  onClick_send s = (s, [])
  /\ exists body,
       onKeyPress (str "Enter") false s
       = (true, (fst (handleSendMessage s), [Post (Chat body)]))
       /\ chat_message body = trim (input s).
Proof.
  intros s.
  exact (proj2 (@enter_sends_while_loading s eq_refl eq_refl)).
Defined.

(** X6.  The key handler acts on Enter without Shift only: it prevents
    the default exactly then, and for any other key, or Enter with
    Shift, it changes nothing and sends nothing. *)
Theorem only_plain_enter_sends (key : jsstring) (shiftKey : bool) (s : State) :
  (fst (onKeyPress key shiftKey s) = true
   <-> key = str "Enter" /\ shiftKey = false)
  /\ (key <> str "Enter" \/ shiftKey = true ->
      onKeyPress key shiftKey s = (false, (s, []))).
Proof.
  unfold onKeyPress.
  destruct (str_eqb key (str "Enter")) eqn:E; destruct shiftKey; simpl.
  - split; [split; [discriminate | intros [_ H]; discriminate H] | reflexivity].
  - apply str_eqb_eq in E. split; [tauto |].
    intros [H | H]; [contradiction | discriminate H].
  - split; [split; [discriminate | intros [_ H]; discriminate H] | reflexivity].
  - split; [| reflexivity]. split; [discriminate |].
    intros [H _]. apply str_eqb_eq in H. congruence.
Qed.

Lemma only_plain_enter_sends_witness :
  let s := setInput (str "first line") initial in
  onKeyPress (str "Enter") true s = (false, (s, [])).
Proof.
  intros s.
  exact (proj2 (only_plain_enter_sends (str "Enter") true s) (or_intror eq_refl)).
Defined.

(** ** Requests *)

Lemma step_posts (e : Event) (s : State) :
  (List.length (filter is_post (snd (step e s)))
   <= (if is_start e then 1 else 0))%nat.
Proof.
  destruct e as [files | [data | err] | | [data | err] | v | v]; simpl;
    try lia.
  - destruct files; simpl; lia.
  - unfold handleSendMessage.
    destruct (negb (nonempty (trim (input s)))); simpl; lia.
Qed.

(** X7.  Requests are sent only when a handler is called, one at most
    per call: a run sends no more requests than it has drops and sends,
    and the continuations never send one (a failed request is not
    retried). *)
Theorem requests_only_from_calls (es : list Event) (s : State) :
  (List.length (filter is_post (run_effects es s))
   <= List.length (filter is_start es))%nat
  /\ (forall o s', filter is_post (snd (onDrop_settled o s')) = []
                   /\ filter is_post (snd (handleSendMessage_settled o s')) = []).
Proof.
  split.
  - revert s. induction es as [| e es IH]; intros s; simpl; [lia |].
    rewrite filter_app, length_app.
    specialize (IH (fst (step e s))). assert (H := step_posts e s).
    destruct (is_start e); simpl; lia.
  - intros [data | err] s'; split; reflexivity.
Qed.

(** ** Invariants of the state *)

Lemma appended_well_formed (e : Event) (s : State) :
  Forall well_formed_turn (appended e s).
Proof.
  destruct e as [files | [data | err] | | [data | err] | v | v]; simpl;
    repeat constructor; try discriminate.
  destruct (nonempty (trim (input s))) eqn:E; repeat constructor.
  unfold well_formed_turn. simpl. now apply nonempty_true.
Qed.

Lemma transcript_well_formed (es : list Event) :
  forall s, Forall well_formed_turn (transcript_of es s).
Proof.
  induction es as [| e es IH]; intros s; simpl; [constructor |].
  apply Forall_app. split; [apply appended_well_formed | apply IH].
Qed.

(** X8.  The handlers only write turns of two shapes: a user turn with
    some text, and a bot turn without an image.  A transcript of such
    turns stays one over every run; the initial, empty one is. *)
Theorem turns_stay_well_formed (es : list Event) (s : State) :
  Forall well_formed_turn (messages s) ->
  Forall well_formed_turn (messages (run es s)).
Proof.
  intros Hs. rewrite run_messages. apply Forall_app.
  split; [exact Hs | apply transcript_well_formed].
Qed.

Lemma turns_stay_well_formed_witness :
  Forall well_formed_turn
    (messages (run [InputChanged (str "hello"); SendPressed;
                    ChatSettled (Rejected (str "Network Error"))] initial)).
Proof.
  apply (@turns_stay_well_formed _ initial). constructor.
Defined.

Lemma run_effects_origin (es : list Event) :
  forall s f, In f (run_effects es s) ->
    exists pre e, (exists post, es = pre ++ e :: post)
                  /\ In f (snd (step e (run pre s))).
Proof.
  induction es as [| e es IH]; intros s f; simpl; [intros [] |].
  intros Hin. apply in_app_or in Hin. destruct Hin as [Hin | Hin].
  - exists [], e. split; [now exists es | exact Hin].
  - destruct (IH _ _ Hin) as [pre [e' [[post Heq] Hin']]].
    exists (e :: pre), e'. split; [exists post; now rewrite Heq | exact Hin'].
Qed.

(** X9.  From the initial state on, the stored analysis is [null] or a
    truthy value, never another falsy one, and so is the analysis every
    chat request of the run carries. *)
Theorem analysis_null_or_truthy (es : list Event) :
  (lastAnalysis (run es initial) = Null
   \/ truthy (lastAnalysis (run es initial)) = true)
  /\ (forall body, In (Post (Chat body)) (run_effects es initial) ->
        chat_last_analysis body = Null
        \/ truthy (chat_last_analysis body) = true).
Proof.
  assert (Hinv : forall es',
            lastAnalysis (run es' initial) = Null
            \/ truthy (lastAnalysis (run es' initial)) = true).
  { intros es'. rewrite run_lastAnalysis.
    destruct (latest_origin es' (lastAnalysis initial)) as [-> | [e [_ Hp]]];
      [now left | right; exact (put_truthy e Hp)]. }
  split; [apply Hinv |].
  intros body Hin.
  destruct (run_effects_origin es initial _ Hin) as [pre [e [_ Hin']]].
  destruct e as [files | [data | err] | | [data | err] | v | v]; simpl in Hin';
    try (destruct Hin' as [H | []]; discriminate H); try (destruct Hin').
  - destruct files; simpl in Hin'; [destruct Hin' |].
    destruct Hin' as [H | []]; discriminate H.
  - destruct (@handleSendMessage_sends _ _ Hin') as [_ ->]. simpl. apply Hinv.
Qed.

(** ** One chat request at a time *)

Lemma chat_round_state (r : jsstring * Outcome) (s : State) :
  nonempty (trim (fst r)) = true ->
  run (chat_round r) s
  = {| messages := messages s ++
                   [ {| type := user; content := trim (fst r); imageUrl := None |};
                     reply_of (snd r) ];
       input := [];
       location := location s;
       loading := false;
       lastAnalysis := latest [ChatSettled (snd r)] (lastAnalysis s) |}.
Proof.
  intros Hne. destruct r as [v o]. simpl in *.
  unfold handleSendMessage. simpl. rewrite Hne. simpl.
  destruct o as [data | err]; simpl;
    [destruct (truthy (last_analysis data)) |];
    unfold setLoading, setLastAnalysis, setMessages, setInput; simpl;
    now rewrite <- app_assoc.
Qed.

(** X10.  In a session where each message is typed, sent and answered
    (or failed) before the next, and no message is blank, the transcript
    grows by one user turn with the trimmed message and one bot turn
    per round, in order; the location is untouched, and after the last
    round the input is empty and nothing is loading. *)
Theorem chat_session_transcript (rounds : list (jsstring * Outcome)) (s : State) :
  Forall (fun r => nonempty (trim (fst r)) = true) rounds ->
  messages (run (chat_session rounds) s)
  = messages s ++
    flat_map (fun r => [ {| type := user; content := trim (fst r);
                            imageUrl := None |};
                         reply_of (snd r) ]) rounds
  /\ location (run (chat_session rounds) s) = location s
  /\ (rounds <> [] ->
      input (run (chat_session rounds) s) = []
      /\ loading (run (chat_session rounds) s) = false).
Proof.
  intros Hall. revert s.
  induction Hall as [| r rest Hr Hrest IH]; intros s.
  - simpl. rewrite app_nil_r. split; [reflexivity | split; [reflexivity |]].
    intros Hnil. now contradiction Hnil.
  - change (chat_session (r :: rest)) with (chat_round r ++ chat_session rest).
    rewrite run_app, (chat_round_state r s Hr).
    destruct (IH {| messages := messages s ++
                      [ {| type := user; content := trim (fst r);
                           imageUrl := None |}; reply_of (snd r) ];
                    input := []; location := location s; loading := false;
                    lastAnalysis := latest [ChatSettled (snd r)] (lastAnalysis s) |})
      as [Hm [Hl Hlast]].
    split; [| split].
    + rewrite Hm. simpl. now rewrite <- app_assoc.
    + exact Hl.
    + intros _. destruct rest as [| r' rest']; [now split |].
      apply Hlast. discriminate.
Qed.

Lemma chat_session_transcript_witness :
  messages (run (chat_session
                   [ (str " is it mold? ",
                      Resolved {| response := str "Likely."; image_url := None;
                                  last_analysis := Undefined |});
                     (str "cost?", Rejected (str "Network Error")) ]) initial)
  = [ {| type := user; content := str "is it mold?"; imageUrl := None |};
      {| type := bot; content := str "Likely."; imageUrl := None |};
      {| type := user; content := str "cost?"; imageUrl := None |};
      {| type := bot; content := chat_error_text; imageUrl := None |} ].
Proof.
  refine (proj1 (@chat_session_transcript _ initial _)).
  repeat constructor.
Defined.

(** ** The loading flag *)

(** X11.  [loading] is a flag, not a count of pending requests: with an
    upload and a chat request both pending, the spinner goes away as
    soon as either of them settles, while the other is still pending. *)
Theorem spinner_stops_at_first_settle (s : State) (file : File)
    (rest : list File) (o : Outcome) (isDragActive : bool) :
  nonempty (trim (input s)) = true ->
  let pending := [Dropped (file :: rest); SendPressed] in
  List.length (filter is_post (run_effects pending s)) = 2%nat
  /\ spinner (render isDragActive (run pending s)) = true
  /\ spinner (render isDragActive (run (pending ++ [UploadSettled o]) s)) = false
  /\ spinner (render isDragActive (run (pending ++ [ChatSettled o]) s)) = false.
Proof.
  intros Hne. simpl. unfold handleSendMessage. simpl. rewrite Hne. simpl.
  repeat split; destruct o as [data | err]; simpl;
    try destruct (truthy (last_analysis data)); reflexivity.
Qed.

Lemma spinner_stops_at_first_settle_witness :
  let s := setInput (str "what is this?") initial in
  let wall := {| file_name := str "wall.png"; file_type := str "image/png" |} in
  spinner (render false
             (run [Dropped [wall]; SendPressed;
                   UploadSettled (Rejected (str "Network Error"))] s)) = false.
Proof.
  intros s wall.
  exact (proj1 (proj2 (proj2
    (@spinner_stops_at_first_settle s wall [] (Rejected (str "Network Error"))
       false eq_refl)))).
Defined.

(** ** Rendering *)

Lemma render_messages_app (a b : list Message) :
  forall k, render_messages k (a ++ b)
            = render_messages k a ++ render_messages (k + List.length a) b.
Proof.
  induction a as [| m a IH]; intros k; simpl.
  - now rewrite Nat.add_0_r.
  - rewrite IH. do 3 f_equal. lia.
Qed.

Lemma render_messages_nth (l : list Message) :
  forall k i b, nth_error (render_messages k l) i = Some b ->
    exists m, nth_error l i = Some m /\ b = render_message (k + i) m.
Proof.
  induction l as [| m l IH]; intros k [| i] b; simpl; try discriminate.
  - intros H. injection H as <-. exists m. now rewrite Nat.add_0_r.
  - intros H. destruct (IH _ _ _ H) as [m' [Hm ->]].
    exists m'. split; [exact Hm | f_equal; lia].
Qed.

(** X12.  The bubbles are keyed by their index, and since the
    transcript only grows at its end the keys are stable: over every
    run the bubbles already rendered stay as they are, key included,
    and the new ones follow; bubble [i] has key [i] and shows the text
    of turn [i]. *)
Theorem bubble_keys_stable (es : list Event) (s : State) (isDragActive : bool) :
  bubbles (render isDragActive (run es s))
  = bubbles (render isDragActive s)
    ++ render_messages (List.length (messages s)) (transcript_of es s)
  /\ (forall i b,
        nth_error (bubbles (render isDragActive (run es s))) i = Some b ->
        key b = i
        /\ exists m, nth_error (messages (run es s)) i = Some m
                     /\ text b = content m).
Proof.
  split.
  - simpl. now rewrite run_messages, render_messages_app.
  - simpl. intros i b H.
    destruct (render_messages_nth _ _ _ H) as [m [Hm ->]].
    split; [reflexivity | now exists m].
Qed.

Lemma bubble_keys_stable_witness :
  key (render_message 0 {| type := user; content := str "hi"; imageUrl := None |})
  = 0%nat.
Proof.
  exact (proj1 (proj2 (bubble_keys_stable
    [InputChanged (str "hi"); SendPressed] initial false) 0%nat
    (render_message 0 {| type := user; content := str "hi"; imageUrl := None |})
    eq_refl)).
Defined.

Lemma render_messages_In (l : list Message) :
  forall k b, In b (render_messages k l) ->
    exists i m, In m l /\ b = render_message i m.
Proof.
  induction l as [| m l IH]; intros k b; simpl; [intros [] |].
  intros [<- | Hin].
  - exists k, m. auto.
  - destruct (IH _ _ Hin) as [i [m' [Hm ->]]]. exists i, m'. auto.
Qed.

(** X13.  From the initial state on, an image is only ever shown in a
    user's bubble (the right-aligned ones): no bot bubble has one. *)
Theorem images_only_in_user_bubbles (es : list Event) (isDragActive : bool)
    (b : Bubble) :
  In b (bubbles (render isDragActive (run es initial))) ->
  img_src b <> None ->
  justifyContent b = str "flex-end".
Proof.
  simpl. intros Hin Himg.
  destruct (render_messages_In _ _ _ Hin) as [i [m [Hm ->]]].
  rewrite run_messages in Hm. simpl in Hm.
  assert (Hwf := transcript_well_formed es initial).
  rewrite Forall_forall in Hwf. specialize (Hwf m Hm).
  unfold well_formed_turn in Hwf. simpl in *.
  destruct (type m); simpl; [reflexivity |].
  rewrite Hwf in Himg. now contradiction Himg.
Qed.

Lemma images_only_in_user_bubbles_witness :
  let shown := {| response := str "Water damage."; 
                  image_url := Some (str "https://res.cloudinary.com/x.png");
                  last_analysis := Undefined |} in
  let b := render_message 0 {| type := user;
                               content := str "Uploaded image for analysis";
                               imageUrl := image_url shown |} in
  justifyContent b = str "flex-end".
Proof.
  intros shown b.
  refine (@images_only_in_user_bubbles [UploadSettled (Resolved shown)] false b _ _).
  - left. reflexivity.
  - discriminate.
Defined.

(** ** What a request depends on, and what a response leaves alone *)

(** X14.  A chat request is built from the input, the location and the
    stored analysis only: the transcript is not sent, and two states
    that agree on those three send the same request. *)
Theorem request_ignores_transcript (s s' : State) :
  input s = input s' ->
  location s = location s' ->
  lastAnalysis s = lastAnalysis s' ->
  snd (handleSendMessage s) = snd (handleSendMessage s').
Proof.
  intros Hi Hl Ha. unfold handleSendMessage. rewrite Hi, Hl, Ha.
  now destruct (negb (nonempty (trim (input s')))).
Qed.

Lemma request_ignores_transcript_witness :
  let s := setInput (str "cost?") initial in
  snd (handleSendMessage s)
  = snd (handleSendMessage
           (setLoading true
              (setMessages (fun prev => prev ++
                 [ {| type := bot; content := str "Hello"; imageUrl := None |} ]) s))).
Proof.
  intros s.
  exact (@request_ignores_transcript s _ eq_refl eq_refl eq_refl).
Defined.

Lemma step_location (e : Event) (s : State) :
  is_location_change e = false -> location (fst (step e s)) = location s.
Proof.
  destruct e as [files | [data | err] | | [data | err] | v | v]; simpl;
    try discriminate; intros _; try reflexivity.
  - now destruct files.
  - now destruct (truthy (last_analysis data)).
  - unfold handleSendMessage. now destruct (negb (nonempty (trim (input s)))).
  - now destruct (truthy (last_analysis data)).
Qed.

(** X15.  A response never touches what the user is typing: both
    continuations, and a drop, leave the input and the location as they
    are; and over a run without an edit of the location field the
    location stays the same, sends included. *)
Theorem responses_keep_draft (es : list Event) (s : State) :
  Forall (fun e => is_location_change e = false) es ->
  location (run es s) = location s
  /\ (forall o s', input (fst (onDrop_settled o s')) = input s'
                   /\ location (fst (onDrop_settled o s')) = location s'
                   /\ input (fst (handleSendMessage_settled o s')) = input s'
                   /\ location (fst (handleSendMessage_settled o s')) = location s')
  /\ (forall files s', input (fst (onDrop files s')) = input s'
                       /\ location (fst (onDrop files s')) = location s').
Proof.
  intros Hall. split; [| split].
  - revert s. induction Hall as [| e es' He Hes IH]; intros s; simpl;
      [reflexivity |].
    now rewrite IH, step_location.
  - intros [data | err] s'; simpl;
      [destruct (truthy (last_analysis data)) |]; repeat split.
  - intros [| f files] s'; split; reflexivity.
Qed.

Lemma responses_keep_draft_witness :
  location (run [InputChanged (str "cost?"); SendPressed;
                 ChatSettled (Rejected (str "Network Error"))]
              (setLocation (str "Pune") initial))
  = str "Pune".
Proof.
  refine (proj1 (@responses_keep_draft _ (setLocation (str "Pune") initial) _)).
  repeat constructor.
Defined.

(** X16.  An upload that runs from drop to settlement leaves a state
    that depends on the response only, not on the files dropped: the
    image a successful upload shows is the server's [image_url], and a
    failed upload records no user turn, only the apology. *)
Theorem upload_round_depends_on_response (file : File) (rest : list File)
    (o : Outcome) (s : State) :
  run [Dropped (file :: rest); UploadSettled o] s = fst (onDrop_settled o s)
  /\ (forall data, o = Resolved data ->
        transcript_of [Dropped (file :: rest); UploadSettled o] s
        = [ {| type := user; content := str "Uploaded image for analysis";
               imageUrl := image_url data |};
            {| type := bot; content := response data; imageUrl := None |} ])
  /\ (forall error, o = Rejected error ->
        transcript_of [Dropped (file :: rest); UploadSettled o] s
        = [ {| type := bot; content := upload_error_text; imageUrl := None |} ]).
Proof.
  split; [| split].
  - destruct o as [data | err]; simpl;
      [destruct (truthy (last_analysis data)) |]; reflexivity.
  - intros data ->. reflexivity.
  - intros error ->. reflexivity.
Qed.

Lemma upload_round_depends_on_response_witness :
  let wall := {| file_name := str "wall.png"; file_type := str "image/png" |} in
  transcript_of [Dropped [wall]; UploadSettled (Rejected (str "Network Error"))]
    initial
  = [ {| type := bot; content := upload_error_text; imageUrl := None |} ].
Proof.
  intros wall.
  exact (proj2 (proj2 (upload_round_depends_on_response wall []
    (Rejected (str "Network Error")) initial)) (str "Network Error") eq_refl).
Defined.
